(** * kfit_test_omp: the OpenMP smoke test of KMAP, as a labelled state machine

    [kfit_test_omp.cpp] holds one function, [mexFunction].  It asks the
    OpenMP runtime for the maximum number of threads, prints it, opens a
    parallel region in which every thread prints its number and the team
    shares a six-iteration loop, and prints a last line after the region.

    The function is embedded as an executable step function over a state made
    of the program counter of the sequential part, the program counter of
    each thread of the team, the iterations of the work-shared loop that the
    runtime has not handed out yet, and the lines written so far.  A run is
    the list of scheduling choices that drives the step function: which
    thread moves next and, inside the loop, which pending iteration the
    runtime hands to it.  Every [printf] call appends one whole line.

    The OpenMP runtime is not part of the repository.  What it answers
    ([omp_get_max_threads], the size of the team) is a parameter of the model;
    what it does ([#pragma omp parallel], [#pragma omp for], the barrier at
    the end of both) is the semantics of the thread steps below. *)

From Stdlib Require Import Ascii.
From stdpp Require Import base list list_numbers gmap strings pretty.

Open Scope Z_scope.

(** ** The OpenMP runtime *)

(** The two answers of the runtime that the program depends on.  The thread
    that meets [#pragma omp parallel] always becomes thread 0 of the new
    team; [omp_workers] counts the threads the runtime adds to it. *)
Record omp_runtime := OmpRuntime {
  omp_max_threads : Z;
  omp_workers : nat
}.

Definition omp_get_max_threads (rt : omp_runtime) : Z := omp_max_threads rt.

(** Size of the team of the parallel region. *)
Definition omp_num_threads (rt : omp_runtime) : nat := S (omp_workers rt).

(** [omp_get_thread_num()] called by the thread at position [t] of the team. *)
Definition omp_get_thread_num (t : nat) : Z := Z.of_nat t.

Arguments omp_num_threads : simpl never.
Arguments omp_get_thread_num : simpl never.

(** ** Output lines *)

(** One constructor per [printf] call of [mexFunction], carrying the values
    passed for its [%d] conversions. *)
Inductive line :=
  | NumberOfThreads (maxth : Z)
  | HelloMaster (th_id : Z)
  | HelloThread (th_id count : Z)
  | Finished.

Global Instance line_eq_dec : EqDecision line.
Proof. solve_decision. Defined.

(** The text of a line, from the format strings of the source. *)
Definition printf (l : line) : string :=
  match l with
  | NumberOfThreads maxth =>
      "Number of threads: " +:+ pretty maxth +:+ "
"
  | HelloMaster th_id =>
      "Hello World from master thread " +:+ pretty th_id +:+ "
"
  | HelloThread th_id count =>
      "Hello World from thread " +:+ pretty th_id +:+ ", " +:+ pretty count +:+ "
"
  | Finished => "Finished
"
  end.

(** [c] occurs in [s]. *)
Fixpoint has_char (c : ascii) (s : string) : bool :=
  match s with
  | EmptyString => false
  | String c' s' => bool_decide (c = c') || has_char c s'
  end.

(** The characters a [%d] conversion can produce. *)
Definition digit_or_dash (c : ascii) : bool := has_char c "-0123456789".

Inductive line_kind := CountLine | IdentityLine | WorkLine | CompletionLine.

Global Instance line_kind_eq_dec : EqDecision line_kind.
Proof. solve_decision. Defined.

Definition kind_of (l : line) : line_kind :=
  match l with
  | NumberOfThreads _ => CountLine
  | HelloMaster _ => IdentityLine
  | HelloThread _ _ => WorkLine
  | Finished => CompletionLine
  end.


(** Thread numbers reported by the identity lines. *)
Fixpoint identity_ids (out : list line) : list Z :=
  match out with
  | [] => []
  | HelloMaster th_id :: out' => th_id :: identity_ids out'
  | _ :: out' => identity_ids out'
  end.

(** Thread number and loop index of every work line. *)
Fixpoint work_items (out : list line) : list (Z * Z) :=
  match out with
  | [] => []
  | HelloThread th_id count :: out' => (th_id, count) :: work_items out'
  | _ :: out' => work_items out'
  end.

Definition work_threads (out : list line) : list Z := (work_items out).*1.
Definition work_counts (out : list line) : list Z := (work_items out).*2.

(** ** The loop [for (int count = 0; count < 6; count++)] *)

(** Iteration space of [for (count = lo; count < hi; count++)]. *)
Definition for_range (lo hi : Z) : list Z := seqZ lo (hi - lo).

Definition loop_iterations : list Z := for_range 0 6.

(** The runtime hands out iteration [count]: it leaves the pending ones. *)
Fixpoint take_iteration (count : Z) (pending : list Z) : option (list Z) :=
  match pending with
  | [] => None
  | c :: pending' =>
      if decide (c = count) then Some pending'
      else cons c <$> take_iteration count pending'
  end.

(** ** Program state *)

Section MexFunction.

(** [mxArray] is declared by [mex.h]; the function only ever holds pointers
    to it. *)
Context {mxArray : Type}.

(** The four parameters of [mexFunction].  [plhs] is the array of output
    slots (empty slots are null pointers), [prhs] the array of inputs. *)
Record mex_args := MexArgs {
  nlhs : Z;
  plhs : list (option mxArray);
  nrhs : Z;
  prhs : list mxArray
}.

(** Where the sequential part of [mexFunction] stands. *)
Inductive main_pc :=
  | AtQuery          (* maxth = omp_get_max_threads(); *)
  | AtPrintCount     (* printf("Number of threads: %d\n", maxth); *)
  | AtParallel       (* #pragma omp parallel *)
  | InRegion         (* the team runs; the region ends with a barrier *)
  | AtPrintFinished  (* printf("Finished\n"); *)
  | Returned.

(** Where one thread of the team stands inside the parallel region. *)
Inductive thread_pc :=
  | AtHello     (* th_id = omp_get_thread_num(); printf("... master thread %d\n") *)
  | AtLoop      (* #pragma omp for: asking the runtime for an iteration *)
  | AtBarrier.  (* past the loop, waiting for the rest of the team *)

#[export] Instance main_pc_eq_dec : EqDecision main_pc.
Proof. solve_decision. Defined.

#[export] Instance thread_pc_eq_dec : EqDecision thread_pc.
Proof. solve_decision. Defined.

Record state := State {
  args : mex_args;
  pc : main_pc;
  maxth : option Z;          (* [int maxth;] holds no value before the query *)
  team : list thread_pc;     (* position [t] is thread number [t] *)
  pending : list Z;          (* iterations of the loop not handed out yet *)
  stdout : list line
}.

(** State on entry to [mexFunction]. *)
Definition entry (a : mex_args) : state :=
  {| args := a; pc := AtQuery; maxth := None; team := []; pending := [];
     stdout := [] |}.

Definition goto (p : main_pc) (s : state) : state :=
  {| args := args s; pc := p; maxth := maxth s; team := team s;
     pending := pending s; stdout := stdout s |}.

Definition emit (l : line) (s : state) : state :=
  {| args := args s; pc := pc s; maxth := maxth s; team := team s;
     pending := pending s; stdout := stdout s ++ [l] |}.

Definition set_maxth (m : Z) (s : state) : state :=
  {| args := args s; pc := pc s; maxth := Some m; team := team s;
     pending := pending s; stdout := stdout s |}.

Definition set_thread (t : nat) (p : thread_pc) (s : state) : state :=
  {| args := args s; pc := pc s; maxth := maxth s; team := <[t := p]> (team s);
     pending := pending s; stdout := stdout s |}.

Definition set_pending (q : list Z) (s : state) : state :=
  {| args := args s; pc := pc s; maxth := maxth s; team := team s;
     pending := q; stdout := stdout s |}.

(** Fork: the runtime forms the team and lays out the iteration space. *)
Definition fork (rt : omp_runtime) (s : state) : state :=
  {| args := args s; pc := InRegion; maxth := maxth s;
     team := replicate (omp_num_threads rt) AtHello;
     pending := loop_iterations; stdout := stdout s |}.

(** ** Scheduling choices and the step function *)

Inductive choice :=
  | Main                        (* next statement of the sequential part *)
  | Hello (t : nat)             (* thread [t] announces itself *)
  | Body (t : nat) (count : Z)  (* thread [t] is handed [count], runs the body *)
  | Arrive (t : nat).           (* thread [t] finds the loop exhausted *)

(** The barrier that ends the region lets the encountering thread go on. *)
Definition joined (s : state) : bool :=
  bool_decide (Forall (λ p, p = AtBarrier) (team s)).

(** The next statement of the sequential part of [mexFunction]. *)
Definition step_main (rt : omp_runtime) (s : state) : option state :=
  match pc s with
  | AtQuery => Some (goto AtPrintCount (set_maxth (omp_get_max_threads rt) s))
  | AtPrintCount =>
      m ← maxth s; Some (goto AtParallel (emit (NumberOfThreads m) s))
  | AtParallel => Some (fork rt s)
  | InRegion => if joined s then Some (goto AtPrintFinished s) else None
  | AtPrintFinished => Some (goto Returned (emit Finished s))
  | Returned => None
  end.

(** A step of a thread of the team.  The runtime is free in how it shares out
    the loop: a thread in the loop may be handed any pending iteration.  A
    thread leaves the loop once no iteration is pending; a thread whose share
    is exhausted earlier, as under a static schedule, only waits until then,
    which writes nothing. *)
Definition step_thread (s : state) (c : choice) : option state :=
  match c with
  | Main => None
  | Hello t =>
      match team s !! t with
      | Some AtHello =>
          Some (set_thread t AtLoop (emit (HelloMaster (omp_get_thread_num t)) s))
      | _ => None
      end
  | Body t count =>
      match team s !! t with
      | Some AtLoop =>
          q ← take_iteration count (pending s);
          Some (emit (HelloThread (omp_get_thread_num t) count) (set_pending q s))
      | _ => None
      end
  | Arrive t =>
      match team s !! t, pending s with
      | Some AtLoop, [] => Some (set_thread t AtBarrier s)
      | _, _ => None
      end
  end.

(** One step.  Threads of the team exist only inside the region. *)
Definition step (rt : omp_runtime) (s : state) (c : choice) : option state :=
  match c with
  | Main => step_main rt s
  | _ => if decide (pc s = InRegion) then step_thread s c else None
  end.

(** A run: the choices are taken from left to right; [None] when one of them
    is not enabled. *)
Fixpoint exec (rt : omp_runtime) (s : state) (cs : list choice) : option state :=
  match cs with
  | [] => Some s
  | c :: cs' => s' ← step rt s c; exec rt s' cs'
  end.

(** [mexFunction] run under runtime [rt] and schedule [cs]. *)
Definition mexFunction (rt : omp_runtime) (a : mex_args) (cs : list choice)
  : option state :=
  exec rt (entry a) cs.

(** The run went through the whole function. *)
Definition complete (s : state) : Prop := pc s = Returned.

(** The same state, reached from another invocation. *)
Definition with_args (a : mex_args) (s : state) : state :=
  {| args := a; pc := pc s; maxth := maxth s; team := team s;
     pending := pending s; stdout := stdout s |}.

End MexFunction.

Arguments mex_args : clear implicits.
Arguments state : clear implicits.

(** ** Invariant of the runs *)

Section Invariant.

Context {mxArray : Type}.
Implicit Types (s : state mxArray) (a : mex_args mxArray).
Implicit Types (rt : omp_runtime) (c : choice) (cs : list choice).
Implicit Types (body out : list line) (tm : list thread_pc) (q : list Z).

(** What holds of the team, the pending iterations and the lines written
    inside the region. *)
Record region_inv rt tm q body : Prop := RegionInv {
  ri_team : length tm = omp_num_threads rt;
  ri_kinds : Forall (λ l, kind_of l = IdentityLine ∨ kind_of l = WorkLine) body;
  ri_ids_nodup : NoDup (identity_ids body);
  ri_ids : ∀ z, z ∈ identity_ids body ↔
             ∃ t p, z = omp_get_thread_num t ∧ tm !! t = Some p ∧ p ≠ AtHello;
  ri_work : work_counts body ++ q ≡ₚ loop_iterations;
  ri_workers : Forall (λ th, 0 ≤ th < Z.of_nat (omp_num_threads rt)) (work_threads body);
  ri_drained : AtBarrier ∈ tm → q = []
}.

Definition inv rt a s : Prop :=
  args s = a ∧
  (pc s = AtQuery ∨ maxth s = Some (omp_get_max_threads rt)) ∧
  match pc s with
  | AtQuery | AtPrintCount => stdout s = []
  | AtParallel => stdout s = [NumberOfThreads (omp_get_max_threads rt)]
  | InRegion =>
      ∃ body, stdout s = NumberOfThreads (omp_get_max_threads rt) :: body
              ∧ region_inv rt (team s) (pending s) body
  | AtPrintFinished =>
      ∃ body, stdout s = NumberOfThreads (omp_get_max_threads rt) :: body
              ∧ region_inv rt (team s) (pending s) body
              ∧ Forall (λ p, p = AtBarrier) (team s)
  | Returned =>
      ∃ body, stdout s = NumberOfThreads (omp_get_max_threads rt) :: body ++ [Finished]
              ∧ region_inv rt (team s) (pending s) body
              ∧ Forall (λ p, p = AtBarrier) (team s)
  end.


End Invariant.

(** ** A bound on the length of runs *)

Definition thread_rank (p : thread_pc) : nat :=
  match p with AtHello => 2 | AtLoop => 1 | AtBarrier => 0 end.

Definition team_rank (tm : list thread_pc) : nat := sum_list (thread_rank <$> tm).

Arguments team_rank : simpl never.

(** Number of steps a state still has before it, at most. *)
Definition steps_left {mxArray} (rt : omp_runtime) (s : state mxArray) : nat :=
  match pc s with
  | AtQuery => 2 * omp_num_threads rt + 11
  | AtPrintCount => 2 * omp_num_threads rt + 10
  | AtParallel => 2 * omp_num_threads rt + 9
  | InRegion => 2 + team_rank (team s) + length (pending s)
  | AtPrintFinished => 1
  | Returned => 0
  end%nat.

(** A state inside the parallel region. *)
Definition region_state {mxArray} (a : mex_args mxArray) (m : Z)
    (tm : list thread_pc) (q : list Z) (out : list line) : state mxArray :=
  {| args := a; pc := InRegion; maxth := Some m; team := tm; pending := q;
     stdout := out |}.

(** ** Orders and relations on outputs *)

(** Every work line comes after the identity line of the thread it names. *)
Definition announced_first (out : list line) : Prop :=
  ∀ pre th count post,
    out = pre ++ HelloThread th count :: post → HelloMaster th ∈ pre.

(** Two states that agree on everything but the value held by [maxth] and
    the first line of the output. *)
Definition same_region {mxArray} (s1 s2 : state mxArray) : Prop :=
  args s1 = args s2 ∧ pc s1 = pc s2 ∧ team s1 = team s2
  ∧ pending s1 = pending s2 ∧ tail (stdout s1) = tail (stdout s2).

(** ** Sample invocations *)

(** A static schedule for a team of two: thread 0 takes 0..2, thread 1 takes
    3..5, the threads alternate. *)
Definition two_thread_schedule : list choice :=
  [Main; Main; Main; Hello 1%nat; Hello 0%nat;
   Body 0%nat 0; Body 1%nat 3; Body 0%nat 1; Body 1%nat 4;
   Body 1%nat 5; Body 0%nat 2;
   Arrive 0%nat; Arrive 1%nat; Main; Main].

Definition no_args : mex_args unit :=
  {| nlhs := 0; plhs := []; nrhs := 0; prhs := [] |}.

(** The state in which [mexFunction] returns after writing [out]. *)
Definition returned_state (a : mex_args unit) (m : Z) (n : nat) (out : list line)
  : state unit :=
  {| args := a; pc := Returned; maxth := Some m; team := replicate n AtBarrier;
     pending := []; stdout := out |}.

Definition two_thread_final : state unit :=
  returned_state no_args 8 2
    [NumberOfThreads 8; HelloMaster 1; HelloMaster 0;
     HelloThread 0 0; HelloThread 1 3; HelloThread 0 1; HelloThread 1 4;
     HelloThread 1 5; HelloThread 0 2; Finished].

(** The team is the encountering thread alone. *)
Definition one_thread_schedule : list choice :=
  [Main; Main; Main; Hello 0%nat;
   Body 0%nat 0; Body 0%nat 1; Body 0%nat 2; Body 0%nat 3; Body 0%nat 4;
   Body 0%nat 5; Arrive 0%nat; Main; Main].

Definition one_thread_final : state unit :=
  returned_state no_args 1 1
    [NumberOfThreads 1; HelloMaster 0;
     HelloThread 0 0; HelloThread 0 1; HelloThread 0 2; HelloThread 0 3;
     HelloThread 0 4; HelloThread 0 5; Finished].

(** A team of seven: threads 0 to 5 run one iteration each, thread 6 none. *)
Definition seven_thread_schedule : list choice :=
  [Main; Main; Main]
  ++ (Hello <$> seq 0 7)
  ++ ((λ t, Body t (Z.of_nat t)) <$> seq 0 6)
  ++ (Arrive <$> seq 0 7)
  ++ [Main; Main].

Definition seven_thread_final : state unit :=
  returned_state no_args 7 7
    ([NumberOfThreads 7]
     ++ ((λ t, HelloMaster (Z.of_nat t)) <$> seq 0 7)
     ++ ((λ t, HelloThread (Z.of_nat t) (Z.of_nat t)) <$> seq 0 6)
     ++ [Finished]).


(** An invocation that asks for one output and passes one input. *)
Definition one_in_one_out : mex_args unit :=
  {| nlhs := 1; plhs := [None]; nrhs := 1; prhs := [()] |}.

(** The run of [two_thread_schedule] stopped after its first identity line. *)
Definition midway_schedule : list choice := [Main; Main; Main; Hello 1%nat].

Definition midway_state : state unit :=
  region_state no_args 8 [AtHello; AtLoop] loop_iterations
    [NumberOfThreads 8; HelloMaster 1].

(** ** Lemmas on lines and on the loop *)

Lemma identity_ids_app out1 out2 :
  identity_ids (out1 ++ out2) = identity_ids out1 ++ identity_ids out2.
Proof.
  induction out1 as [|[] out1 IH]; simpl; rewrite ?IH; reflexivity.
Qed.

Lemma work_items_app out1 out2 :
  work_items (out1 ++ out2) = work_items out1 ++ work_items out2.
Proof.
  induction out1 as [|[] out1 IH]; simpl; rewrite ?IH; reflexivity.
Qed.

Lemma work_counts_app out1 out2 :
  work_counts (out1 ++ out2) = work_counts out1 ++ work_counts out2.
Proof. unfold work_counts. by rewrite work_items_app, fmap_app. Qed.

Lemma work_threads_app out1 out2 :
  work_threads (out1 ++ out2) = work_threads out1 ++ work_threads out2.
Proof. unfold work_threads. by rewrite work_items_app, fmap_app. Qed.





Lemma elem_of_identity_ids out z : z ∈ identity_ids out ↔ HelloMaster z ∈ out.
Proof.
  induction out as [|l out IH]; simpl.
  - by rewrite !elem_of_nil.
  - destruct l; rewrite ?elem_of_cons, IH; intuition congruence.
Qed.

Lemma elem_of_work_items out th count :
  (th, count) ∈ work_items out ↔ HelloThread th count ∈ out.
Proof.
  induction out as [|l out IH]; simpl.
  - by rewrite !elem_of_nil.
  - destruct l; rewrite ?elem_of_cons, IH; intuition congruence.
Qed.



Lemma take_iteration_perm count q q' :
  take_iteration count q = Some q' → q ≡ₚ count :: q'.
Proof.
  revert q'. induction q as [|c q IH]; intros q'; simpl; [done|].
  case_decide as Hc.
  - intros [= <-]. by subst.
  - destruct (take_iteration count q) as [q0|]; simpl; [|done].
    intros [= <-]. rewrite (IH q0 eq_refl). apply Permutation_swap.
Qed.

Lemma take_iteration_elem count q :
  count ∈ q → is_Some (take_iteration count q).
Proof.
  induction 1 as [c q|c c' q _ IH]; simpl.
  - rewrite decide_True by done. eauto.
  - case_decide; [eauto|]. destruct IH as [q' ->]. simpl. eauto.
Qed.

(** ** The text of a line determines the line *)

Lemma pretty_N_char_digit n : digit_or_dash (pretty_N_char n) = true.
Proof. unfold pretty_N_char. by repeat case_match. Qed.

Lemma has_char_pretty_N_go c x s :
  digit_or_dash c = false → has_char c (pretty_N_go x s) = has_char c s.
Proof.
  intros Hc. revert s. induction (N.lt_wf_0 x) as [x _ IH]. intros s.
  destruct (decide (0 < x)%N) as [Hx|Hx].
  - rewrite pretty_N_go_step by done. rewrite IH by (by apply N.div_lt).
    simpl. rewrite bool_decide_eq_false_2; [done|].
    intros ->. by rewrite pretty_N_char_digit in Hc.
  - assert (x = 0%N) as -> by lia. by rewrite pretty_N_go_0.
Qed.

Lemma has_char_pretty_Z c (z : Z) :
  digit_or_dash c = false → has_char c (pretty z) = false.
Proof.
  intros Hc.
  assert (∀ p : positive, has_char c (pretty p) = false) as Hpos.
  { intros p. unfold pretty, pretty_positive, pretty, pretty_N.
    rewrite decide_False by done. by rewrite has_char_pretty_N_go. }
  destruct z as [|p|p]; unfold pretty at 1, pretty_Z.
  - simpl. rewrite bool_decide_eq_false_2; [done|]. by intros ->.
  - apply Hpos.
  - change ("-" +:+ pretty p) with (String "-" (pretty p)). cbn [has_char].
    rewrite Hpos, bool_decide_eq_false_2; [done|]. by intros ->.
Qed.

Lemma split_at_char c d1 : ∀ d2 r1 r2,
  has_char c d1 = false → has_char c d2 = false →
  d1 +:+ String c r1 = d2 +:+ String c r2 → d1 = d2 ∧ r1 = r2.
Proof.
  induction d1 as [|c1 d1 IH]; intros [|c2 d2] r1 r2; simpl.
  - by intros _ _ [= ->].
  - intros _ [Hc _]%orb_false_elim [= <- _]. by rewrite bool_decide_eq_true_2 in Hc.
  - intros [Hc _]%orb_false_elim _ [= -> _]. by rewrite bool_decide_eq_true_2 in Hc.
  - intros [_ H1]%orb_false_elim [_ H2]%orb_false_elim [= -> Heq].
    destruct (IH _ _ _ H1 H2 Heq) as [-> ->]. done.
Qed.

Lemma pretty_until c (x y : Z) r1 r2 :
  digit_or_dash c = false →
  pretty x +:+ String c r1 = pretty y +:+ String c r2 → x = y ∧ r1 = r2.
Proof.
  intros Hc [Heq ->]%split_at_char; try by apply has_char_pretty_Z.
  by apply (inj pretty) in Heq.
Qed.

(** X4: the text of a line determines the line: two [printf] calls of
    [mexFunction] that write the same text are the same call with the same
    numbers. *)
Lemma printf_inj l1 l2 : printf l1 = printf l2 → l1 = l2.
Proof.
  destruct l1, l2; simpl; try (intros [=]; fail); try done.
  - intros [= Heq]. cbn [String.app] in Heq.
    by apply pretty_until in Heq as [-> _].
  - intros [= Heq]. cbn [String.app] in Heq.
    by apply pretty_until in Heq as [-> _].
  - intros [= Heq]. cbn [String.app] in Heq.
    apply pretty_until in Heq as [-> Heq]; [|done].
    injection Heq as Heq. by apply pretty_until in Heq as [-> _].
Qed.

(** ** The invariant holds along every run *)

Section Preservation.

Context {mxArray : Type}.
Implicit Types (s : state mxArray) (a : mex_args mxArray).
Implicit Types (rt : omp_runtime) (c : choice) (cs : list choice).
Implicit Types (body out : list line) (tm : list thread_pc) (q : list Z).

Lemma region_inv_fork rt :
  region_inv rt (replicate (omp_num_threads rt) AtHello) loop_iterations [].
Proof.
  split.
  - apply length_replicate.
  - constructor.
  - constructor.
  - intros z. cbn [identity_ids]. rewrite elem_of_nil. split; [done|].
    intros (t & p & _ & Ht & Hp). apply lookup_replicate in Ht as [-> _]. done.
  - done.
  - constructor.
  - intros [[=] _]%elem_of_replicate.
Qed.

Lemma region_inv_hello rt tm q body t :
  region_inv rt tm q body →
  tm !! t = Some AtHello →
  region_inv rt (<[t := AtLoop]> tm) q (body ++ [HelloMaster (omp_get_thread_num t)]).
Proof.
  intros [Hlen Hk Hnd Hids Hw Hth Hdr] Ht.
  assert (Hlt : (t < length tm)%nat) by (by eapply lookup_lt_Some).
  split.
  - by rewrite length_insert.
  - apply Forall_app. split; [done|]. apply Forall_singleton. by left.
  - rewrite identity_ids_app. simpl. apply NoDup_app. split_and!; [done| |apply NoDup_singleton].
    intros z Hz ->%list_elem_of_singleton.
    apply Hids in Hz as (t' & p & Heq & Ht' & Hp).
    apply (inj Z.of_nat) in Heq as <-. congruence.
  - intros z. rewrite identity_ids_app. simpl.
    rewrite elem_of_app, list_elem_of_singleton, Hids. split.
    + intros [(t' & p & -> & Ht' & Hp)| ->].
      * exists t', p. split_and!; [done| |done].
        rewrite list_lookup_insert_ne; [done|congruence].
      * exists t, AtLoop. split_and!; [done| |done].
        by rewrite list_lookup_insert_eq.
    + intros (t' & p & -> & Ht' & Hp).
      destruct (decide (t = t')) as [<-|Hne]; [by right|left].
      rewrite list_lookup_insert_ne in Ht' by done. eauto.
  - rewrite work_counts_app. simpl. by rewrite app_nil_r.
  - rewrite work_threads_app. simpl. by rewrite app_nil_r.
  - intros Hb. apply Hdr.
    apply list_elem_of_lookup in Hb as [t' Ht'].
    destruct (decide (t = t')) as [<-|Hne].
    + rewrite list_lookup_insert_eq in Ht' by done. done.
    + rewrite list_lookup_insert_ne in Ht' by done. by eapply list_elem_of_lookup_2.
Qed.

Lemma region_inv_body rt tm q q' body t count :
  region_inv rt tm q body →
  tm !! t = Some AtLoop →
  take_iteration count q = Some q' →
  region_inv rt tm q' (body ++ [HelloThread (omp_get_thread_num t) count]).
Proof.
  intros [Hlen Hk Hnd Hids Hw Hth Hdr] Ht Hq.
  assert (Hlt : (t < length tm)%nat) by (by eapply lookup_lt_Some).
  apply take_iteration_perm in Hq.
  split.
  - done.
  - apply Forall_app. split; [done|]. apply Forall_singleton. by right.
  - rewrite identity_ids_app. simpl. by rewrite app_nil_r.
  - intros z. rewrite identity_ids_app. simpl. by rewrite app_nil_r.
  - rewrite work_counts_app. simpl. rewrite <- Hw, Hq, <- app_assoc. done.
  - rewrite work_threads_app. simpl. apply Forall_app. split; [done|].
    apply Forall_singleton. unfold omp_get_thread_num. rewrite <- Hlen. simpl. lia.
  - intros Hb. specialize (Hdr Hb). subst q.
    by apply Permutation_nil_cons in Hq.
Qed.

Lemma region_inv_arrive rt tm body t :
  region_inv rt tm [] body →
  tm !! t = Some AtLoop →
  region_inv rt (<[t := AtBarrier]> tm) [] body.
Proof.
  intros [Hlen Hk Hnd Hids Hw Hth Hdr] Ht.
  split; try done.
  - by rewrite length_insert.
  - intros z. rewrite Hids. split.
    + intros (t' & p & -> & Ht' & Hp).
      destruct (decide (t = t')) as [<-|Hne].
      * exists t, AtBarrier. split_and!; [done| |done].
        rewrite list_lookup_insert_eq; [done|by eapply lookup_lt_Some].
      * exists t', p. by rewrite list_lookup_insert_ne.
    + intros (t' & p & -> & Ht' & Hp).
      destruct (decide (t = t')) as [<-|Hne].
      * exists t, AtLoop. done.
      * rewrite list_lookup_insert_ne in Ht' by done. eauto.
Qed.

Lemma inv_entry rt a : inv rt a (entry a).
Proof. split_and!; [done|by left|done]. Qed.

Lemma inv_step rt a s c s' : inv rt a s → step rt s c = Some s' → inv rt a s'.
Proof.
  intros (Ha & Hm & Hs) Hstep. destruct c as [|t|t count|t]; simpl in Hstep.
  - (* sequential part *)
    unfold step_main in Hstep. destruct (pc s) eqn:Hpc.
    + injection Hstep as <-. split_and!; [done|by right|done].
    + destruct Hm as [|Hm]; [done|]. rewrite Hm in Hstep. injection Hstep as <-.
      split_and!; [done|by right|]. simpl. by rewrite Hs.
    + destruct Hm as [|Hm]; [done|]. injection Hstep as <-.
      split_and!; [done|by right|]. simpl.
      exists []. split; [done|]. apply region_inv_fork.
    + destruct Hm as [|Hm]; [done|].
      destruct (joined s) eqn:Hj; [|done]. injection Hstep as <-.
      apply bool_decide_eq_true in Hj.
      destruct Hs as (body & Hout & Hr). split_and!; [done|by right|]. simpl. eauto.
    + destruct Hm as [|Hm]; [done|].
      injection Hstep as <-. destruct Hs as (body & Hout & Hr & Hb).
      split_and!; [done|by right|]. simpl. exists body. by rewrite Hout.
    + done.
  - (* identity line *)
    case_decide as Hpc; [|done]. rewrite Hpc in Hs.
    destruct Hm as [|Hm]; [congruence|].
    destruct Hs as (body & Hout & Hr). simpl in Hstep.
    destruct (team s !! t) as [[]|] eqn:Ht; try done. injection Hstep as <-.
    split_and!; [done|by right|]. simpl. rewrite Hpc.
    exists (body ++ [HelloMaster (omp_get_thread_num t)]).
    split; [by rewrite Hout|]. by apply region_inv_hello.
  - (* loop body *)
    case_decide as Hpc; [|done]. rewrite Hpc in Hs.
    destruct Hm as [|Hm]; [congruence|].
    destruct Hs as (body & Hout & Hr). simpl in Hstep.
    destruct (team s !! t) as [[]|] eqn:Ht; try done.
    destruct (take_iteration count (pending s)) as [q'|] eqn:Hq; [|done].
    injection Hstep as <-.
    split_and!; [done|by right|]. simpl. rewrite Hpc.
    exists (body ++ [HelloThread (omp_get_thread_num t) count]).
    split; [by rewrite Hout|]. by eapply region_inv_body.
  - (* end of the loop *)
    case_decide as Hpc; [|done]. rewrite Hpc in Hs.
    destruct Hm as [|Hm]; [congruence|].
    destruct Hs as (body & Hout & Hr). simpl in Hstep.
    destruct (team s !! t) as [[]|] eqn:Ht; try done.
    destruct (pending s) eqn:Hq; [|done]. injection Hstep as <-.
    split_and!; [done|by right|]. simpl. rewrite Hpc.
    exists body. split; [done|]. rewrite Hq. by apply region_inv_arrive.
Qed.

Lemma inv_exec rt a cs : ∀ s s', inv rt a s → exec rt s cs = Some s' → inv rt a s'.
Proof.
  induction cs as [|c cs IH]; intros s s' Hs; simpl.
  - by intros [= <-].
  - destruct (step rt s c) as [s1|] eqn:Hstep; [|done]. simpl.
    apply IH. by eapply inv_step.
Qed.

Lemma inv_mexFunction rt a cs s : mexFunction rt a cs = Some s → inv rt a s.
Proof. apply inv_exec, inv_entry. Qed.

End Preservation.

(** ** The output of a complete run *)

Section CompleteRuns.

Context {mxArray : Type}.
Implicit Types (s : state mxArray) (a : mex_args mxArray).
Implicit Types (rt : omp_runtime) (c : choice) (cs : list choice).
Implicit Types (body out : list line) (tm : list thread_pc) (q : list Z).

(** Once the whole team stands at the barrier, the identity lines name the
    threads [0 .. N-1], each once. *)
Lemma region_inv_ids_joined rt tm q body :
  region_inv rt tm q body →
  Forall (λ p, p = AtBarrier) tm →
  identity_ids body ≡ₚ omp_get_thread_num <$> seq 0 (omp_num_threads rt).
Proof.
  intros [Hlen _ Hnd Hids _ _ _] Hb.
  apply NoDup_Permutation; [done| |].
  - apply NoDup_fmap_2; [|apply NoDup_seq]. unfold omp_get_thread_num. apply _.
  - intros z. rewrite Hids, list_elem_of_fmap. split.
    + intros (t & p & -> & Ht & _). exists t. split; [done|].
      apply elem_of_seq. apply lookup_lt_Some in Ht. lia.
    + intros (t & -> & Ht%elem_of_seq).
      destruct (lookup_lt_is_Some_2 tm t) as [p Hp]; [lia|].
      exists t, p. split_and!; [done..|].
      rewrite Forall_lookup in Hb. by rewrite (Hb _ _ Hp).
Qed.

(** ... and the loop has no iteration left. *)
Lemma region_inv_work_joined rt tm q body :
  region_inv rt tm q body →
  Forall (λ p, p = AtBarrier) tm →
  q = [] ∧ work_counts body ≡ₚ loop_iterations.
Proof.
  intros [Hlen _ _ _ Hw _ Hdr] Hb.
  assert (q = []) as ->.
  { apply Hdr. destruct tm as [|p tm]; [done|].
    apply Forall_cons in Hb as [-> _]. left. }
  split; [done|]. by rewrite app_nil_r in Hw.
Qed.

Lemma complete_body rt a cs s :
  mexFunction rt a cs = Some s → complete s →
  ∃ body,
    stdout s = NumberOfThreads (omp_get_max_threads rt) :: body ++ [Finished]
    ∧ Forall (λ l, kind_of l = IdentityLine ∨ kind_of l = WorkLine) body
    ∧ identity_ids body ≡ₚ omp_get_thread_num <$> seq 0 (omp_num_threads rt)
    ∧ work_counts body ≡ₚ loop_iterations
    ∧ Forall (λ th, 0 ≤ th < Z.of_nat (omp_num_threads rt)) (work_threads body).
Proof.
  intros (_ & _ & Hs)%inv_mexFunction Hc. unfold complete in Hc.
  rewrite Hc in Hs. destruct Hs as (body & Hout & Hr & Hb).
  exists body. split_and!; [done|by destruct Hr| | |by destruct Hr].
  - by eapply region_inv_ids_joined.
  - by eapply region_inv_work_joined.
Qed.

Lemma identity_ids_framed m body :
  identity_ids (NumberOfThreads m :: body ++ [Finished]) = identity_ids body.
Proof. simpl. rewrite identity_ids_app. simpl. apply app_nil_r. Qed.

Lemma work_items_framed m body :
  work_items (NumberOfThreads m :: body ++ [Finished]) = work_items body.
Proof. simpl. rewrite work_items_app. simpl. apply app_nil_r. Qed.







End CompleteRuns.

(** ** Runs are finite and never stuck before the end *)

Section Progress.

Context {mxArray : Type}.
Implicit Types (s : state mxArray) (a : mex_args mxArray).
Implicit Types (rt : omp_runtime) (c : choice) (cs : list choice).
Implicit Types (body out : list line) (tm : list thread_pc) (q : list Z).

Lemma team_rank_replicate n p : team_rank (replicate n p) = (n * thread_rank p)%nat.
Proof.
  unfold team_rank. by rewrite fmap_replicate, sum_list_replicate.
Qed.

Lemma team_rank_insert tm t p p' :
  tm !! t = Some p →
  (team_rank (<[t := p']> tm) + thread_rank p = team_rank tm + thread_rank p')%nat.
Proof.
  unfold team_rank. revert t. induction tm as [|p0 tm IH]; intros [|t]; csimpl; try done.
  - intros [= ->]. lia.
  - intros Ht. specialize (IH _ Ht). lia.
Qed.

Lemma exec_app rt s cs1 cs2 :
  exec rt s (cs1 ++ cs2) = s' ← exec rt s cs1; exec rt s' cs2.
Proof.
  revert s. induction cs1 as [|c cs1 IH]; intros s; simpl; [done|].
  destruct (step rt s c); simpl; [apply IH|done].
Qed.

Lemma step_steps_left rt s c s' :
  step rt s c = Some s' → (steps_left rt s' < steps_left rt s)%nat.
Proof.
  intros Hstep. destruct c as [|t|t count|t]; simpl in Hstep.
  - unfold step_main in Hstep. unfold steps_left at 2. destruct (pc s) eqn:Hpc.
    + injection Hstep as <-. unfold steps_left. simpl. lia.
    + destruct (maxth s); [|done]. injection Hstep as <-. unfold steps_left. simpl. lia.
    + injection Hstep as <-. unfold steps_left, fork. cbn [pc team pending].
      rewrite team_rank_replicate. cbn [thread_rank].
      change (length loop_iterations) with 6%nat. lia.
    + destruct (joined s); [|done]. injection Hstep as <-. unfold steps_left. simpl. lia.
    + injection Hstep as <-. unfold steps_left. simpl. lia.
    + done.
  - case_decide as Hpc; [|done]. simpl in Hstep.
    destruct (team s !! t) as [[]|] eqn:Ht; try done. injection Hstep as <-.
    unfold steps_left. simpl. rewrite Hpc.
    pose proof (team_rank_insert _ _ _ AtLoop Ht) as Hr. simpl in Hr. lia.
  - case_decide as Hpc; [|done]. simpl in Hstep.
    destruct (team s !! t) as [[]|] eqn:Ht; try done.
    destruct (take_iteration count (pending s)) as [q'|] eqn:Hq; [|done].
    injection Hstep as <-. unfold steps_left. simpl. rewrite Hpc.
    apply take_iteration_perm, Permutation_length in Hq. simpl in Hq. lia.
  - case_decide as Hpc; [|done]. simpl in Hstep.
    destruct (team s !! t) as [[]|] eqn:Ht; try done.
    destruct (pending s) eqn:Hq; [|done]. injection Hstep as <-.
    unfold steps_left. simpl. rewrite Hpc, Hq.
    pose proof (team_rank_insert _ _ _ AtBarrier Ht) as Hr. simpl in Hr. simpl. lia.
Qed.

(** No schedule is longer than [2 N + 11] choices. *)
Lemma exec_steps_left rt cs : ∀ s s',
  exec rt s cs = Some s' → (length cs + steps_left rt s' ≤ steps_left rt s)%nat.
Proof.
  induction cs as [|c cs IH]; intros s s'; simpl.
  - intros [= <-]. lia.
  - destruct (step rt s c) as [s1|] eqn:Hstep; [|done]. simpl. intros Hex.
    apply IH in Hex. apply step_steps_left in Hstep. lia.
Qed.

(** A state that is not the final one has an enabled choice. *)
Lemma inv_progress rt a s :
  inv rt a s → ¬ complete s → ∃ c s', step rt s c = Some s'.
Proof.
  intros (_ & Hm & Hs) Hnc. unfold complete in Hnc.
  destruct (pc s) eqn:Hpc; try done.
  - exists Main. simpl. unfold step_main. rewrite Hpc. eauto.
  - destruct Hm as [|Hm]; [done|].
    exists Main. simpl. unfold step_main. rewrite Hpc, Hm. simpl. eauto.
  - exists Main. simpl. unfold step_main. rewrite Hpc. eauto.
  - destruct Hs as (body & _ & Hr).
    destruct (decide (Forall (λ p, p = AtBarrier) (team s))) as [Hb|Hb].
    + exists Main. simpl. unfold step_main, joined. rewrite Hpc.
      rewrite bool_decide_eq_true_2 by done. eauto.
    + apply not_Forall_Exists in Hb; [|apply _].
      apply Exists_exists in Hb as (p & Hin & Hp).
      apply list_elem_of_lookup in Hin as [t Ht].
      destruct p; [| |by destruct Hp].
      * exists (Hello t). simpl. rewrite decide_True by done. simpl. rewrite Ht. eauto.
      * destruct (pending s) as [|count q] eqn:Hq.
        -- exists (Arrive t). simpl. rewrite decide_True by done. simpl.
           rewrite Ht, Hq. eauto.
        -- exists (Body t count). simpl. rewrite decide_True by done. simpl.
           rewrite Ht, Hq. simpl. rewrite decide_True by done. simpl. eauto.
  - exists Main. simpl. unfold step_main. rewrite Hpc. eauto.
Qed.

(** Every reachable state can be driven to the end of the function. *)
Lemma inv_completes rt a s :
  inv rt a s → ∃ cs s', exec rt s cs = Some s' ∧ complete s'.
Proof.
  remember (steps_left rt s) as n eqn:Hn. revert s Hn.
  induction n as [n IH] using lt_wf_ind. intros s -> Hinv.
  destruct (decide (pc s = Returned)) as [Hc|Hc].
  - exists [], s. done.
  - destruct (inv_progress _ _ _ Hinv Hc) as (c & s1 & Hstep).
    destruct (IH (steps_left rt s1)) with (s := s1) as (cs & s' & Hex & Hs');
      [by eapply step_steps_left|done|by eapply inv_step|].
    exists (c :: cs), s'. simpl. rewrite Hstep. done.
Qed.

(** Every run of [mexFunction] is the beginning of a complete run. *)
Lemma mexFunction_completes rt a cs s :
  mexFunction rt a cs = Some s →
  ∃ cs' s', mexFunction rt a (cs ++ cs') = Some s' ∧ complete s'.
Proof.
  intros Hrun. destruct (inv_completes rt a s) as (cs' & s' & Hex & Hc).
  { by eapply inv_mexFunction. }
  exists cs', s'. split; [|done].
  unfold mexFunction in *. by rewrite exec_app, Hrun.
Qed.

Lemma mexFunction_run_exists rt a :
  ∃ cs s, mexFunction rt a cs = Some s ∧ complete s.
Proof.
  destruct (mexFunction_completes rt a [] (entry a)) as (cs & s & Hrun & Hc); [done|].
  eauto.
Qed.

End Progress.

(** ** The output of a run that may still be under way *)

Section Prefixes.

Context {mxArray : Type}.
Implicit Types (s : state mxArray) (a : mex_args mxArray).
Implicit Types (rt : omp_runtime) (c : choice) (cs : list choice).
Implicit Types (body out : list line) (tm : list thread_pc) (q : list Z).




End Prefixes.

(** ** The invocation arguments play no part *)

Section Arguments.

Context {mxArray : Type}.
Implicit Types (s : state mxArray) (a : mex_args mxArray).
Implicit Types (rt : omp_runtime) (c : choice) (cs : list choice).

Lemma step_with_args rt a s c :
  step rt (with_args a s) c = with_args a <$> step rt s c.
Proof.
  destruct c as [|t|t count|t]; simpl.
  - unfold step_main, joined. simpl. destruct (pc s); try done.
    + by destruct (maxth s).
    + by case_bool_decide.
  - case_decide; [|done]. simpl. by destruct (team s !! t) as [[]|].
  - case_decide; [|done]. simpl. destruct (team s !! t) as [[]|]; try done.
    by destruct (take_iteration count (pending s)).
  - case_decide; [|done]. simpl. destruct (team s !! t) as [[]|]; try done.
    by destruct (pending s).
Qed.

Lemma exec_with_args rt a cs : ∀ s,
  exec rt (with_args a s) cs = with_args a <$> exec rt s cs.
Proof.
  induction cs as [|c cs IH]; intros s; simpl; [done|].
  rewrite step_with_args. destruct (step rt s c) as [s1|]; simpl; [apply IH|done].
Qed.

Lemma mexFunction_with_args rt a1 a2 cs :
  mexFunction rt a2 cs = with_args a2 <$> mexFunction rt a1 cs.
Proof. unfold mexFunction. by rewrite <- exec_with_args. Qed.

End Arguments.

(** ** Properties of [mexFunction] *)




Section Claims.

Context {mxArray : Type}.
Implicit Types (s : state mxArray) (a : mex_args mxArray).
Implicit Types (rt : omp_runtime) (c : choice) (cs : list choice).
Implicit Types (body out : list line) (tm : list thread_pc) (q : list Z).









(** C9: [mexFunction] hands nothing back to its caller: at every point of
    every run the invocation arguments are the ones it was called with; in
    particular no slot of [plhs] has been written, whatever [nlhs] is. *)
Theorem arguments_untouched rt a cs s :
  mexFunction rt a cs = Some s →
  args s = a ∧ plhs (args s) = plhs a.
Proof.
  intros (Ha & _)%inv_mexFunction. by rewrite Ha.
Qed.

(** C10: under the same runtime and the same schedule, two invocations write
    the same output (and the schedule is enabled for both or for neither),
    whatever [nlhs], [plhs], [nrhs] and [prhs] are. *)
Theorem output_independent_of_arguments rt a1 a2 cs :
  stdout <$> mexFunction rt a1 cs = stdout <$> mexFunction rt a2 cs.
Proof.
  rewrite (mexFunction_with_args rt a1 a2).
  by destruct (mexFunction rt a1 cs).
Qed.

End Claims.

Example two_thread_text :
  (λ s, printf <$> stdout s) <$> mexFunction (OmpRuntime 8 1) no_args two_thread_schedule
  = Some ["Number of threads: 8
"; "Hello World from master thread 1
"; "Hello World from master thread 0
"; "Hello World from thread 0, 0
"; "Hello World from thread 1, 3
"; "Hello World from thread 0, 1
"; "Hello World from thread 1, 4
"; "Hello World from thread 1, 5
"; "Hello World from thread 0, 2
"; "Finished
"].
Proof. vm_compute. reflexivity. Qed.

(** ** The properties at the sample invocations *)

Example two_thread_run :
  mexFunction (OmpRuntime 8 1) no_args two_thread_schedule = Some two_thread_final.
Proof. vm_compute. reflexivity. Qed.

Example one_thread_run :
  mexFunction (OmpRuntime 1 0) no_args one_thread_schedule = Some one_thread_final.
Proof. vm_compute. reflexivity. Qed.

Example seven_thread_run :
  mexFunction (OmpRuntime 7 6) no_args seven_thread_schedule = Some seven_thread_final.
Proof. vm_compute. reflexivity. Qed.










Lemma arguments_untouched_witness :
  mexFunction (OmpRuntime 8 1) one_in_one_out two_thread_schedule
  = Some (with_args one_in_one_out two_thread_final)
  ∧ args (with_args one_in_one_out two_thread_final) = one_in_one_out
  ∧ plhs (args (with_args one_in_one_out two_thread_final)) = [None].
Proof.
  split; [reflexivity|].
  apply (arguments_untouched (OmpRuntime 8 1) one_in_one_out two_thread_schedule).
  reflexivity.
Defined.

(** ** Further properties of [mexFunction] *)

Section Further.

Context {mxArray : Type}.
Implicit Types (s : state mxArray) (a : mex_args mxArray).
Implicit Types (rt : omp_runtime) (c : choice) (cs : list choice).
Implicit Types (body out : list line) (tm : list thread_pc) (q : list Z).

Lemma team_rank_joined tm : Forall (λ p, p = AtBarrier) tm → team_rank tm = 0%nat.
Proof.
  unfold team_rank. induction 1 as [|p tm -> _ IH]; [done|]. csimpl. by rewrite IH.
Qed.

(** Along a run every step takes exactly one unit off [steps_left]. *)
Lemma inv_step_steps_left rt a s c s' :
  inv rt a s → step rt s c = Some s' → steps_left rt s = S (steps_left rt s').
Proof.
  intros (_ & _ & Hs) Hstep. destruct c as [|t|t count|t]; simpl in Hstep.
  - unfold step_main in Hstep. unfold steps_left at 1. destruct (pc s) eqn:Hpc.
    + injection Hstep as <-. unfold steps_left. simpl. lia.
    + destruct (maxth s); [|done]. injection Hstep as <-. unfold steps_left. simpl. lia.
    + injection Hstep as <-. unfold steps_left, fork. cbn [pc team pending].
      rewrite team_rank_replicate. cbn [thread_rank].
      change (length loop_iterations) with 6%nat. lia.
    + destruct (joined s) eqn:Hj; [|done]. injection Hstep as <-.
      apply bool_decide_eq_true in Hj. destruct Hs as (body & _ & Hr).
      destruct (region_inv_work_joined _ _ _ _ Hr Hj) as [Hq _].
      unfold steps_left. simpl. rewrite Hq.
      rewrite (team_rank_joined _ Hj). simpl. lia.
    + injection Hstep as <-. unfold steps_left. simpl. lia.
    + done.
  - case_decide as Hpc; [|done]. simpl in Hstep.
    destruct (team s !! t) as [[]|] eqn:Ht; try done. injection Hstep as <-.
    unfold steps_left. simpl. rewrite Hpc.
    pose proof (team_rank_insert _ _ _ AtLoop Ht) as Hr. simpl in Hr. lia.
  - case_decide as Hpc; [|done]. simpl in Hstep.
    destruct (team s !! t) as [[]|] eqn:Ht; try done.
    destruct (take_iteration count (pending s)) as [q'|] eqn:Hq; [|done].
    injection Hstep as <-. unfold steps_left. simpl. rewrite Hpc.
    apply take_iteration_perm, Permutation_length in Hq. simpl in Hq. lia.
  - case_decide as Hpc; [|done]. simpl in Hstep.
    destruct (team s !! t) as [[]|] eqn:Ht; try done.
    destruct (pending s) eqn:Hq; [|done]. injection Hstep as <-.
    unfold steps_left. simpl. rewrite Hpc, Hq.
    pose proof (team_rank_insert _ _ _ AtBarrier Ht) as Hr. simpl in Hr. simpl. lia.
Qed.

Lemma inv_exec_steps_left rt a cs : ∀ s s',
  inv rt a s → exec rt s cs = Some s' →
  steps_left rt s = (length cs + steps_left rt s')%nat.
Proof.
  induction cs as [|c cs IH]; intros s s' Hinv; simpl.
  - by intros [= <-].
  - destruct (step rt s c) as [s1|] eqn:Hstep; [|done]. simpl. intros Hex.
    rewrite (inv_step_steps_left _ _ _ _ _ Hinv Hstep).
    rewrite (IH s1 s'); [lia|by eapply inv_step|done].
Qed.

(** X1: [mexFunction] terminates whatever the schedule: a run takes at most
    [2 N + 11] steps for a team of [N] threads, and it has returned exactly
    when it has taken that many. *)
Theorem run_length rt a cs s :
  mexFunction rt a cs = Some s →
  (length cs ≤ 2 * omp_num_threads rt + 11)%nat
  ∧ (complete s ↔ length cs = (2 * omp_num_threads rt + 11)%nat).
Proof.
  intros Hrun.
  pose proof (inv_exec_steps_left rt a cs _ _ (inv_entry rt a) Hrun) as Hlen.
  change (steps_left rt (entry a)) with (2 * omp_num_threads rt + 11)%nat in Hlen.
  split; [lia|]. unfold complete. split.
  - intros Hc. unfold steps_left in Hlen. rewrite Hc in Hlen. lia.
  - intros Hl. assert (steps_left rt s = 0%nat) as H0 by lia.
    unfold steps_left in H0. destruct (pc s); try done; lia.
Qed.

(** X2: [mexFunction] never hangs: a run that has not returned can always
    take a further step, and it can be carried on to a complete run; in
    particular the barrier that ends the region is always reached by the
    whole team. *)
Theorem no_run_gets_stuck rt a cs s :
  mexFunction rt a cs = Some s → ¬ complete s →
  (∃ c s', step rt s c = Some s')
  ∧ ∃ cs' s', mexFunction rt a (cs ++ cs') = Some s' ∧ complete s'.
Proof.
  intros Hrun Hnc. pose proof (inv_mexFunction _ _ _ _ Hrun) as Hinv. split.
  - by eapply inv_progress.
  - destruct (inv_completes _ _ _ Hinv) as (cs' & s' & Hex & Hc).
    exists cs', s'. split; [|done]. unfold mexFunction in *. by rewrite exec_app, Hrun.
Qed.

(** A thread announces itself before it reports an iteration. *)

Lemma announced_first_snoc out l :
  announced_first out →
  (∀ th count, l = HelloThread th count → HelloMaster th ∈ out) →
  announced_first (out ++ [l]).
Proof.
  intros Hout Hl pre th count post Heq.
  destruct post as [|y post _] using rev_ind.
  - apply app_inj_tail in Heq as [-> ->]. by eapply Hl.
  - assert (out ++ [l] = (pre ++ HelloThread th count :: post) ++ [y]) as Heq'
      by (by rewrite <- app_assoc).
    apply app_inj_tail in Heq' as [Heq' _]. by eapply Hout.
Qed.

Lemma inv_step_announced rt a s c s' :
  inv rt a s → step rt s c = Some s' →
  announced_first (stdout s) → announced_first (stdout s').
Proof.
  intros (_ & _ & Hs) Hstep Hout. destruct c as [|t|t count|t]; simpl in Hstep.
  - unfold step_main in Hstep. destruct (pc s) eqn:Hpc.
    + by injection Hstep as <-.
    + destruct (maxth s); [|done]. injection Hstep as <-. simpl.
      by apply announced_first_snoc.
    + by injection Hstep as <-.
    + destruct (joined s); [|done]. by injection Hstep as <-.
    + injection Hstep as <-. simpl. by apply announced_first_snoc.
    + done.
  - case_decide as Hpc; [|done]. simpl in Hstep.
    destruct (team s !! t) as [[]|] eqn:Ht; try done. injection Hstep as <-.
    simpl. by apply announced_first_snoc.
  - case_decide as Hpc; [|done]. rewrite Hpc in Hs.
    destruct Hs as (body & Hbody & Hr). simpl in Hstep.
    destruct (team s !! t) as [[]|] eqn:Ht; try done.
    destruct (take_iteration count (pending s)) as [q'|]; [|done].
    injection Hstep as <-. simpl. apply announced_first_snoc; [done|].
    intros th count' [= <- <-]. rewrite Hbody. right.
    apply elem_of_identity_ids, (ri_ids _ _ _ _ Hr). by exists t, AtLoop.
  - case_decide as Hpc; [|done]. simpl in Hstep.
    destruct (team s !! t) as [[]|] eqn:Ht; try done.
    destruct (pending s); [|done]. by injection Hstep as <-.
Qed.

Lemma inv_exec_announced rt a cs : ∀ s s',
  inv rt a s → exec rt s cs = Some s' →
  announced_first (stdout s) → announced_first (stdout s').
Proof.
  induction cs as [|c cs IH]; intros s s' Hinv; simpl.
  - by intros [= <-].
  - destruct (step rt s c) as [s1|] eqn:Hstep; [|done]. simpl. intros Hex Hout.
    eapply (IH s1); [by eapply inv_step|done|by eapply inv_step_announced].
Qed.

(** X6: at every point of every run, a work line comes after the identity
    line of the thread it names: a thread announces itself before it reports
    any iteration. *)
Theorem identity_line_before_work_lines rt a cs s :
  mexFunction rt a cs = Some s → announced_first (stdout s).
Proof.
  intros Hrun. eapply inv_exec_announced; [apply inv_entry|done|].
  intros pre th count post Heq. by destruct pre.
Qed.

(** More threads than iterations. *)

(** X8: when the team has more than six threads, a complete run has a
    thread that writes its identity line and no work line. *)
Theorem some_thread_gets_no_iteration rt a cs s :
  (6 < omp_num_threads rt)%nat →
  mexFunction rt a cs = Some s → complete s →
  ∃ th, HelloMaster th ∈ stdout s ∧ ∀ count, HelloThread th count ∉ stdout s.
Proof.
  intros Hn Hrun Hc.
  destruct (complete_body _ _ _ _ Hrun Hc) as (body & Hout & _ & Hids & Hw & _).
  assert (NoDup (identity_ids (stdout s))) as Hnd.
  { rewrite Hout, identity_ids_framed, Hids.
    apply NoDup_fmap_2; [|apply NoDup_seq]. unfold omp_get_thread_num. apply _. }
  assert (length (identity_ids (stdout s)) = omp_num_threads rt) as Hli.
  { by rewrite Hout, identity_ids_framed, Hids, length_fmap, length_seq. }
  assert (length (work_threads (stdout s)) = 6%nat) as Hlw.
  { unfold work_threads. rewrite length_fmap, Hout, work_items_framed.
    by rewrite <- (length_fmap snd), Hw. }
  destruct (decide (Forall (λ z, z ∈ work_threads (stdout s))
                      (identity_ids (stdout s)))) as [Hall|Hsome].
  - rewrite Forall_forall in Hall.
    apply NoDup_submseteq, submseteq_length in Hall; [lia|done].
  - apply not_Forall_Exists in Hsome; [|apply _].
    apply Exists_exists in Hsome as (th & Hth & Hidle). exists th. split.
    + by apply elem_of_identity_ids.
    + intros count Hin%elem_of_work_items. apply Hidle.
      unfold work_threads. apply list_elem_of_fmap. by exists (th, count).
Qed.


(** The queried maximum is only printed. *)


Lemma tail_snoc {A} (l : list A) x : l ≠ [] → tail (l ++ [x]) = tail l ++ [x].
Proof. by destruct l. Qed.

Lemma inv_region_stdout rt a s :
  inv rt a s → pc s = InRegion ∨ pc s = AtPrintFinished → stdout s ≠ [].
Proof.
  intros (_ & _ & Hs) [Hpc|Hpc]; rewrite Hpc in Hs;
    destruct Hs as (body & -> & _); done.
Qed.

Lemma step_same_region rt1 rt2 a s1 s2 c :
  omp_workers rt1 = omp_workers rt2 →
  inv rt1 a s1 → inv rt2 a s2 → same_region s1 s2 →
  match step rt1 s1 c, step rt2 s2 c with
  | Some s1', Some s2' => same_region s1' s2'
  | None, None => True
  | _, _ => False
  end.
Proof.
  intros Hw Hi1 Hi2 (Ha & Hpc & Ht & Hq & Hout).
  pose proof (inv_region_stdout _ _ _ Hi1) as Hne1.
  pose proof (inv_region_stdout _ _ _ Hi2) as Hne2.
  destruct Hi1 as (_ & Hm1 & Hs1), Hi2 as (_ & Hm2 & Hs2).
  destruct c as [|t|t count|t]; simpl.
  - unfold step_main, joined. rewrite <- Hpc, <- Ht. destruct (pc s1) eqn:Hpc1.
    + done.
    + rewrite <- Hpc in Hs2, Hm2.
      destruct Hm1 as [|Hm1]; [done|]. destruct Hm2 as [|Hm2]; [done|].
      rewrite Hm1, Hm2. simpl.
      split_and!; try done. simpl. by rewrite Hs1, Hs2.
    + unfold same_region, fork, omp_num_threads. simpl. by rewrite Hw.
    + case_bool_decide; done.
    + split_and!; try done. simpl.
      rewrite !tail_snoc; [by rewrite Hout|..]; [apply Hne2|apply Hne1]; by right.
    + done.
  - rewrite <- Hpc. case_decide as Hpc1; [|done]. simpl. rewrite <- Ht.
    destruct (team s1 !! t) as [[]|]; try done.
    split_and!; try done; simpl; [by rewrite Ht|].
    rewrite !tail_snoc; [by rewrite Hout|..]; [apply Hne2|apply Hne1]; left; congruence.
  - rewrite <- Hpc. case_decide as Hpc1; [|done]. simpl. rewrite <- Ht, <- Hq.
    destruct (team s1 !! t) as [[]|]; try done.
    destruct (take_iteration count (pending s1)); [|done]. simpl.
    split_and!; try done; simpl.
    rewrite !tail_snoc; [by rewrite Hout|..]; [apply Hne2|apply Hne1]; left; congruence.
  - rewrite <- Hpc. case_decide as Hpc1; [|done]. simpl. rewrite <- Ht, <- Hq.
    destruct (team s1 !! t) as [[]|]; try done.
    destruct (pending s1) eqn:Hq1; [|done].
    split_and!; try done; simpl; [by rewrite Ht|by rewrite Hq1, <- Hq].
Qed.

Lemma exec_same_region rt1 rt2 a cs : ∀ s1 s2,
  omp_workers rt1 = omp_workers rt2 →
  inv rt1 a s1 → inv rt2 a s2 → same_region s1 s2 →
  match exec rt1 s1 cs, exec rt2 s2 cs with
  | Some s1', Some s2' => same_region s1' s2'
  | None, None => True
  | _, _ => False
  end.
Proof.
  induction cs as [|c cs IH]; intros s1 s2 Hw Hi1 Hi2 Hr; simpl; [done|].
  pose proof (step_same_region rt1 rt2 a s1 s2 c Hw Hi1 Hi2 Hr) as Hstep.
  destruct (step rt1 s1 c) as [s1'|] eqn:H1, (step rt2 s2 c) as [s2'|] eqn:H2;
    try done. simpl.
  apply IH; [done|by eapply inv_step..|done].
Qed.

(** X7: the value of [omp_get_max_threads] is printed and not used
    otherwise: under two runtimes that form teams of the same size, the same
    schedules are enabled and the outputs agree on every line after the
    first. *)
Theorem region_ignores_max_threads rt1 rt2 a cs :
  omp_workers rt1 = omp_workers rt2 →
  (λ s, tail (stdout s)) <$> mexFunction rt1 a cs
  = (λ s, tail (stdout s)) <$> mexFunction rt2 a cs.
Proof.
  intros Hw. unfold mexFunction.
  assert (same_region (entry a) (entry a)) as Hr by done.
  pose proof (exec_same_region rt1 rt2 a cs (entry a) (entry a) Hw
                (inv_entry rt1 a) (inv_entry rt2 a) Hr) as Hex.
  destruct (exec rt1 (entry a) cs) as [s1|], (exec rt2 (entry a) cs) as [s2|];
    simpl.
  - destruct Hex as (_ & _ & _ & _ & Ho). by rewrite Ho.
  - destruct Hex.
  - destruct Hex.
  - done.
Qed.

End Further.

(** ** Each call writes one line *)

Lemma string_app_assoc (s1 s2 s3 : string) : (s1 +:+ s2) +:+ s3 = s1 +:+ s2 +:+ s3.
Proof.
  induction s1 as [|c s1 IH]; [done|].
  change (String c ((s1 +:+ s2) +:+ s3) = String c (s1 +:+ s2 +:+ s3)). by f_equal.
Qed.

Lemma has_char_app c (s1 s2 : string) :
  has_char c (s1 +:+ s2) = has_char c s1 || has_char c s2.
Proof.
  induction s1 as [|c1 s1 IH]; [done|].
  change (has_char c (String c1 (s1 +:+ s2)) = has_char c (String c1 s1) || has_char c s2).
  cbn [has_char]. by rewrite IH, orb_assoc.
Qed.

(** X5: each [printf] call of [mexFunction] writes exactly one line: its
    text ends with a newline and holds no other newline. *)
Theorem printf_one_line l :
  ∃ text, printf l = text +:+ String "010" "" ∧ has_char "010" text = false.
Proof.
  destruct l as [m|th|th count|].
  - exists ("Number of threads: " +:+ pretty m). split; [done|].
    by rewrite has_char_app, has_char_pretty_Z.
  - exists ("Hello World from master thread " +:+ pretty th). split; [done|].
    by rewrite has_char_app, has_char_pretty_Z.
  - exists ("Hello World from thread " +:+ pretty th +:+ ", " +:+ pretty count). split.
    + cbn [printf]. by rewrite !string_app_assoc.
    + by rewrite !has_char_app, !has_char_pretty_Z.
  - by exists "Finished".
Qed.


(** ** The further properties at the sample invocations *)

Example midway_run :
  mexFunction (OmpRuntime 8 1) no_args midway_schedule = Some midway_state.
Proof. vm_compute. reflexivity. Qed.

Lemma run_length_witness :
  mexFunction (OmpRuntime 8 1) no_args two_thread_schedule = Some two_thread_final
  ∧ (length two_thread_schedule ≤ 2 * omp_num_threads (OmpRuntime 8 1) + 11)%nat
  ∧ (complete two_thread_final
     ↔ length two_thread_schedule = (2 * omp_num_threads (OmpRuntime 8 1) + 11)%nat).
Proof.
  split; [reflexivity|].
  apply (run_length (OmpRuntime 8 1) no_args two_thread_schedule). reflexivity.
Defined.

Lemma no_run_gets_stuck_witness :
  mexFunction (OmpRuntime 8 1) no_args midway_schedule = Some midway_state
  ∧ ¬ complete midway_state
  ∧ (∃ c s', step (OmpRuntime 8 1) midway_state c = Some s')
  ∧ ∃ cs' s', mexFunction (OmpRuntime 8 1) no_args (midway_schedule ++ cs') = Some s'
              ∧ complete s'.
Proof.
  assert (¬ complete midway_state) as Hnc by (intros [=]).
  split; [reflexivity|]. split; [exact Hnc|].
  apply (no_run_gets_stuck (OmpRuntime 8 1) no_args midway_schedule);
    [reflexivity|exact Hnc].
Defined.

Lemma printf_inj_witness :
  printf (HelloThread 1 3) = "Hello World from thread 1, 3
"
  ∧ HelloThread 1 3 = HelloThread (0 + 1) (1 + 2).
Proof.
  split; [reflexivity|].
  apply (printf_inj (HelloThread 1 3) (HelloThread (0 + 1) (1 + 2))). reflexivity.
Defined.

Lemma identity_line_before_work_lines_witness :
  mexFunction (OmpRuntime 8 1) no_args two_thread_schedule = Some two_thread_final
  ∧ stdout two_thread_final
    = [NumberOfThreads 8; HelloMaster 1; HelloMaster 0; HelloThread 0 0]
      ++ HelloThread 1 3
         :: [HelloThread 0 1; HelloThread 1 4; HelloThread 1 5; HelloThread 0 2;
             Finished]
  ∧ HelloMaster 1
      ∈ [NumberOfThreads 8; HelloMaster 1; HelloMaster 0; HelloThread 0 0].
Proof.
  split; [reflexivity|]. split; [reflexivity|].
  apply (identity_line_before_work_lines (OmpRuntime 8 1) no_args
           two_thread_schedule two_thread_final eq_refl
           [NumberOfThreads 8; HelloMaster 1; HelloMaster 0; HelloThread 0 0]
           1 3
           [HelloThread 0 1; HelloThread 1 4; HelloThread 1 5; HelloThread 0 2;
            Finished]).
  reflexivity.
Defined.

Lemma region_ignores_max_threads_witness :
  omp_workers (OmpRuntime 8 1) = omp_workers (OmpRuntime 2 1)
  ∧ (λ s, tail (stdout s)) <$> mexFunction (OmpRuntime 8 1) no_args two_thread_schedule
    = (λ s, tail (stdout s)) <$> mexFunction (OmpRuntime 2 1) no_args two_thread_schedule.
Proof.
  split; [reflexivity|].
  apply (region_ignores_max_threads (OmpRuntime 8 1) (OmpRuntime 2 1) no_args).
  reflexivity.
Defined.

Lemma some_thread_gets_no_iteration_witness :
  (6 < omp_num_threads (OmpRuntime 7 6))%nat
  ∧ mexFunction (OmpRuntime 7 6) no_args seven_thread_schedule
    = Some seven_thread_final
  ∧ complete seven_thread_final
  ∧ ∃ th, HelloMaster th ∈ stdout seven_thread_final
          ∧ ∀ count, HelloThread th count ∉ stdout seven_thread_final.
Proof.
  assert (6 < omp_num_threads (OmpRuntime 7 6))%nat as Hn
    by (unfold omp_num_threads; simpl; lia).
  split; [exact Hn|]. split; [reflexivity|]. split; [reflexivity|].
  apply (some_thread_gets_no_iteration (OmpRuntime 7 6) no_args seven_thread_schedule);
    [exact Hn|reflexivity|reflexivity].
Defined.
